(** * Forwarded-IP reconciliation of the GCE Windows agent

    A shallow embedding of [GCEWindowsAgent/addresses.go]: the settings
    resolvers ([parseWSFCAddresses], [parseWSFCEnable], [disabled]), the change
    detector ([diff]), the failover filter ([applyWSFCFilter]), the diff engine
    ([compareIPs]) and the apply loop ([set]), followed by the properties the
    specification states about them. *)

From Stdlib Require Import ZArith Ascii String List.
From stdpp Require Import base option list strings gmap.

Local Open Scope string_scope.
Local Open Scope list_scope.
Local Open Scope nat_scope.

(** ** Go library functions used by the source *)

Module strconv.

(** [strconv.ParseBool]: accepts 1, t, T, TRUE, true, True, 0, f, F, FALSE,
    false, False; any other string is an error ([None]). *)
Definition ParseBool (str : string) : option bool :=
  if decide (str ∈ ["1"; "t"; "T"; "TRUE"; "true"; "True"]) then Some true
  else if decide (str ∈ ["0"; "f"; "F"; "FALSE"; "false"; "False"]) then Some false
  else None.

End strconv.

Module strings.

(** [strings.Split(s, sep)] for a separator of one character: the fields
    between the separators, [n+1] fields for [n] separators. *)
Fixpoint Split (s : string) (sep : ascii) : list string :=
  match s with
  | EmptyString => [""]
  | String c rest =>
      if decide (c = sep) then "" :: Split rest sep
      else match Split rest sep with
           | field :: fields => String c field :: fields
           | [] => [String c ""]
           end
  end.

Fixpoint HasSuffix (s suffix : string) : bool :=
  bool_decide (s = suffix) ||
  match s with
  | EmptyString => false
  | String _ rest => HasSuffix rest suffix
  end.

(** [strings.TrimSuffix]: [s] without the trailing [suffix], or [s] itself
    when it does not end with [suffix]. *)
Definition TrimSuffix (s suffix : string) : string :=
  if HasSuffix s suffix
  then substring 0 (String.length s - String.length suffix) s
  else s.

End strings.

(** ** Data model *)

(** Go error values. [errRegNotExist] is the agent's sentinel for a missing
    registry value, compared with [==] in [set]. *)
Inductive error : Type :=
  | errRegNotExist
  | errOther (msg : string).

#[global] Instance error_eq_dec : EqDecision error.
Proof. solve_decision. Defined.

(** A Go result pair [(value, err)]. *)
Inductive goResult (A : Type) : Type :=
  | Value (a : A)
  | Failure (e : error).
Arguments Value {A} a.
Arguments Failure {A} e.

(** The fields of [metadataJSON] that addresses.go reads. *)
Record attributesJSON : Type := mkAttributes {
  WSFCAddresses : string;
  EnableWSFC : string;
  DisableAddressManager : string
}.

Record networkInterfaces : Type := mkNetworkInterfaces {
  Mac : string;
  ForwardedIps : list string
}.

Record instanceJSON : Type := mkInstance {
  inst_Attributes : attributesJSON;
  NetworkInterfaces : list networkInterfaces
}.

Record projectJSON : Type := mkProject {
  proj_Attributes : attributesJSON
}.

Record metadataJSON : Type := mkMetadata {
  md_Instance : instanceJSON;
  md_Project : projectJSON
}.

(** The local ini file, as the map from (section, key) to the key's value. *)
Abbreviation iniFile := (gmap (string * string) string).

(** [cfg.Section(sec).Key(key).String()]: the empty string for a missing key. *)
Definition keyString (cfg : iniFile) (sec key : string) : string :=
  default "" (cfg !! (sec, key)).

Record addresses : Type := mkAddresses {
  newMetadata : metadataJSON;
  oldMetadata : metadataJSON;
  config : iniFile
}.

(** What the agent writes to its log. *)
Inductive logEntry : Type :=
  | LogError (e : error)
  | LogNoInterface (mac : string)
  | LogBadWSFCAddress (addr : string)
  | LogChange (mac : string) (regFwdIPs mdFwdIPs toAdd toRm : list string)
  | LogStatus (name : string) (isDisabled : bool).

(** Modelled from the spec: [containsString] is declared in another file of
    the agent; the specification describes the test as set membership of the
    string in the list. *)
Fixpoint containsString (s : string) (ss : list string) : bool :=
  match ss with
  | [] => false
  | a :: rest => if decide (a = s) then true else containsString s rest
  end.

(** ** Diff engine *)

Definition compareIPs (regFwdIPs mdFwdIPs cfgIPs : list string)
  : list string * list string :=
  let toAdd := List.filter (fun mdIP => negb (containsString mdIP cfgIPs)) mdFwdIPs in
  let toRm :=
    List.filter (fun cfgIP => containsString cfgIP regFwdIPs
                              && negb (containsString cfgIP mdFwdIPs)) cfgIPs in
  (toAdd, toRm).

(** ** The platform: operating system, registry and Go libraries *)

(** [net.Interface], over the type of hardware addresses. *)
Record netInterface (HW : Type) : Type := mkInterface {
  Index : Z;
  MTU : Z;
  Name : string;
  HardwareAddr : HW;
  Flags : N
}.
Arguments mkInterface {HW}.
Arguments Index {HW}.
Arguments MTU {HW}.
Arguments Name {HW}.
Arguments HardwareAddr {HW}.
Arguments Flags {HW}.

#[global] Instance netInterface_eq_dec {HW} `{EqDecision HW} :
  EqDecision (netInterface HW).
Proof. solve_decision. Defined.

(** Everything addresses.go calls but does not define: the Go [net],
    [reflect] and go-ini functions, and the agent's own wrappers around the
    registry and the IP helper API. A call into the operating system takes
    the state of the world and returns its result with the next state. *)
Class Platform : Type := {
  World : Type;
  IP : Type;
  HW : Type;
  HW_eq_dec :: EqDecision HW;
  (** the nil [net.HardwareAddr], the one of the zero [net.Interface] *)
  nilHW : HW;
  (** [HardwareAddr.String] *)
  hwString : HW → string;
  ParseMAC : string → goResult HW;
  (** [net.ParseIP]: [None] is the nil IP *)
  ParseIP : string → option IP;
  (** [Key.Bool] of go-ini, on the key's string *)
  iniBool : string → option bool;
  (** [reflect.DeepEqual] on two interface lists *)
  DeepEqual : list networkInterfaces → list networkInterfaces → bool;
  regKeyBase : string;
  (** [net.Interfaces] *)
  Interfaces : World → goResult (list (netInterface HW)) * World;
  (** [iface.Addrs], each address by its [String] *)
  Addrs : netInterface HW → World → goResult (list string) * World;
  readRegMultiString : string → string → World → goResult (list string) * World;
  writeRegMultiString : string → string → list string → World → option error * World;
  addIPAddress : option IP → option IP → Z → World → option error * World;
  deleteIPAddress : option IP → World → option error * World;
}.

Section Agent.

Context `{Platform}.

(** *** Process state: the world, the package variables and the log *)

Record state : Type := mkState {
  os : World;
  addressDisabled : bool;
  oldWSFCAddresses : string;
  oldWSFCEnable : bool;
  badMAC : list string;
  logged : list logEntry
}.

Definition addressKey : string := regKeyBase +:+ "\ForwardedIps".

Definition withOS (w : World) (st : state) : state :=
  mkState w (addressDisabled st) (oldWSFCAddresses st) (oldWSFCEnable st)
          (badMAC st) (logged st).

Definition withLog (e : logEntry) (st : state) : state :=
  mkState (os st) (addressDisabled st) (oldWSFCAddresses st) (oldWSFCEnable st)
          (badMAC st) (logged st ++ [e]).

Definition withBadMAC (mac : string) (st : state) : state :=
  mkState (os st) (addressDisabled st) (oldWSFCAddresses st) (oldWSFCEnable st)
          (badMAC st ++ [mac]) (logged st).

Definition withAddressDisabled (b : bool) (st : state) : state :=
  mkState (os st) b (oldWSFCAddresses st) (oldWSFCEnable st)
          (badMAC st) (logged st).

Definition withOldWSFC (addrs : string) (enable : bool) (st : state) : state :=
  mkState (os st) (addressDisabled st) addrs enable (badMAC st) (logged st).

(** *** A computation of the agent: it returns with a next state, or the
    Go runtime panics. *)

Inductive outcome (A : Type) : Type :=
  | Returns (a : A) (st : state)
  | Panics.
Arguments Returns {A} a st.
Arguments Panics {A}.

Definition M (A : Type) : Type := state → outcome A.

#[local] Instance M_ret : MRet M := λ A a st, Returns a st.

#[local] Instance M_bind : MBind M := λ A B f m st,
  match m st with
  | Returns a st' => f a st'
  | Panics => Panics
  end.

Definition panic {A} : M A := λ _, Panics.

Definition callOS {A} (f : World → A * World) : M A :=
  λ st, let '(a, w) := f (os st) in Returns a (withOS w st).

Definition logf (e : logEntry) : M unit :=
  λ st, Returns tt (withLog e st).

(** *** Config resolver *)

Definition instAttrs (a : addresses) : attributesJSON :=
  inst_Attributes (md_Instance (newMetadata a)).

Definition projAttrs (a : addresses) : attributesJSON :=
  proj_Attributes (md_Project (newMetadata a)).

Definition parseWSFCAddresses (a : addresses) : string :=
  let wsfcAddresses := keyString (config a) "wsfc" "addresses" in
  if decide (0 < String.length wsfcAddresses) then wsfcAddresses
  else if decide (0 < String.length (WSFCAddresses (instAttrs a)))
  then WSFCAddresses (instAttrs a)
  else if decide (0 < String.length (WSFCAddresses (projAttrs a)))
  then WSFCAddresses (projAttrs a)
  else "".

Definition parseWSFCEnable (a : addresses) : bool :=
  match iniBool (keyString (config a) "wsfc" "enable") with
  | Some wsfcEnable => wsfcEnable
  | None =>
      match strconv.ParseBool (EnableWSFC (instAttrs a)) with
      | Some wsfcEnable => wsfcEnable
      | None =>
          match strconv.ParseBool (EnableWSFC (projAttrs a)) with
          | Some wsfcEnable => wsfcEnable
          | None => false
          end
      end
  end.

(** *** Change detector *)

Definition diff (a : addresses) : M bool :=
  λ st,
    let wsfcAddresses := parseWSFCAddresses a in
    let wsfcEnable := parseWSFCEnable a in
    let diff :=
      negb (DeepEqual (NetworkInterfaces (md_Instance (newMetadata a)))
                      (NetworkInterfaces (md_Instance (oldMetadata a))))
      || negb (bool_decide (wsfcEnable = oldWSFCEnable st))
      || negb (bool_decide (wsfcAddresses = oldWSFCAddresses st)) in
    Returns diff (withOldWSFC wsfcAddresses wsfcEnable st).

(** *** Disable gate *)

(** The value [disabled] is about to return, before its deferred function
    runs. *)
Definition disabledResult (a : addresses) (st : state) : bool :=
  match strconv.ParseBool (keyString (config a) "addressManager" "disable") with
  | Some disabled => disabled
  | None =>
      match strconv.ParseBool (DisableAddressManager (instAttrs a)) with
      | Some disabled => disabled
      | None =>
          match strconv.ParseBool (DisableAddressManager (projAttrs a)) with
          | Some disabled => disabled
          | None => addressDisabled st
          end
      end
  end.

Definition disabled (a : addresses) : M bool :=
  λ st,
    let disabled := disabledResult a st in
    if decide (disabled ≠ addressDisabled st)
    then Returns disabled
           (withLog (LogStatus "address" disabled) (withAddressDisabled disabled st))
    else Returns disabled st.

(** *** Failover filter *)

(** The first loop of [applyWSFCFilter]: the entries of the attribute that
    are not empty and parse as an IP, in order. *)
Fixpoint wsfcAddrsLoop (fields wsfcAddrs : list string) : M (list string) :=
  match fields with
  | [] => mret wsfcAddrs
  | wsfcAddr :: rest =>
      if decide (String.length wsfcAddr = 0) then wsfcAddrsLoop rest wsfcAddrs
      else match ParseIP wsfcAddr with
           | None =>
               logf (LogBadWSFCAddress wsfcAddr);;
               wsfcAddrsLoop rest wsfcAddrs
           | Some _ => wsfcAddrsLoop rest (wsfcAddrs ++ [wsfcAddr])
           end
  end.

(** [a] with the forwarded IPs of every interface of the new metadata
    replaced by [f] of the interface. *)
Definition withForwardedIps (f : networkInterfaces → list string) (a : addresses)
  : addresses :=
  let md := newMetadata a in
  let inst := md_Instance md in
  mkAddresses
    (mkMetadata
       (mkInstance (inst_Attributes inst)
          (map (λ ni, mkNetworkInterfaces (Mac ni) (f ni)) (NetworkInterfaces inst)))
       (md_Project md))
    (oldMetadata a) (config a).

(** The filter writes into the interfaces of [a.newMetadata]; the model
    returns the receiver after the writes. *)
Definition applyWSFCFilter (a : addresses) : M addresses :=
  wsfcAddrs ← wsfcAddrsLoop (strings.Split (WSFCAddresses (instAttrs a)) ",") [];
  if decide (length wsfcAddrs ≠ 0) then
    mret (withForwardedIps
            (λ ni, List.filter (λ ip, negb (containsString ip wsfcAddrs))
                               (ForwardedIps ni)) a)
  else
    match strconv.ParseBool (EnableWSFC (instAttrs a)) with
    | Some true => mret (withForwardedIps (λ _, []) a)
    | _ => mret a
    end.

(** *** Apply loop *)

(** The bad-MAC bookkeeping of [set]: log once per distinct string. *)
Definition noteBadMAC (mac : string) (e : logEntry) : M unit :=
  λ st,
    if containsString mac (badMAC st) then Returns tt st
    else Returns tt (withBadMAC mac (withLog e st)).

Definition zeroInterface : netInterface HW := mkInterface 0%Z 0%Z "" nilHW 0%N.

(** The search loop of [set]: the last interface of [ifs] whose hardware
    address prints as [mac] does, the zero interface when there is none. *)
Definition findInterface (ifs : list (netInterface HW)) (mac : HW) : netInterface HW :=
  fold_left
    (λ iface i,
       if decide (hwString (HardwareAddr i) = hwString mac) then i else iface)
    ifs zeroInterface.

(** [for i, rIP := range reg { if rIP == ip { ...; break } }]: the first
    index of [ip] in [reg]. *)
Fixpoint indexOf (ip : string) (reg : list string) : option nat :=
  match reg with
  | [] => None
  | rIP :: rest => if decide (rIP = ip) then Some 0 else S <$> indexOf ip rest
  end.

(** [append(s[:i], s[i+1:]...)] on the slice [s]. [s[i+1:]] is in range
    when [i+1 <= len(s)], and [s[:i]] when [i <= cap(s)], which the former
    implies; out of range the Go runtime panics ([None]). The appended
    elements fit the capacity of [s[:i]], so the append writes into the
    array of [s]: the elements after [i] move down one place and the last
    one stays. The result is the new slice with the elements [s] shows
    afterwards. *)
Definition appendWithout (s : list string) (i : nat)
  : option (list string * list string) :=
  if decide (i + 1 ≤ length s)%nat then
    let r := take i s ++ drop (i + 1) s in
    Some (r, r ++ drop (length s - 1) s)
  else None.

(** The loop over [toAdd]. [regFwdIPs] is threaded because the append
    writes through it; the loop returns [reg]. *)
Fixpoint addLoop (index : Z) (toAdd regFwdIPs reg : list string) : M (list string) :=
  match toAdd with
  | [] => mret reg
  | ip :: rest =>
      err ← callOS (addIPAddress (ParseIP ip) (ParseIP "255.255.255.255") index);
      match err with
      | None => addLoop index rest regFwdIPs reg
      | Some e =>
          logf (LogError e);;
          match indexOf ip reg with
          | None => addLoop index rest regFwdIPs reg
          | Some i =>
              match appendWithout regFwdIPs i with
              | None => panic
              | Some (reg', regFwdIPs') => addLoop index rest regFwdIPs' reg'
              end
          end
      end
  end.

(** The loop over [toRm]. *)
Fixpoint rmLoop (toRm reg : list string) : M (list string) :=
  match toRm with
  | [] => mret reg
  | ip :: rest =>
      err ← callOS (deleteIPAddress (ParseIP ip));
      match err with
      | None => rmLoop rest reg
      | Some e =>
          logf (LogError e);;
          rmLoop rest (reg ++ [ip])
      end
  end.

(** The value of [reg] that reaches [writeRegMultiString], from the
    assignment [reg := ni.ForwardedIps] on. *)
Definition nextPersisted (index : Z) (regFwdIPs mdFwdIPs toAdd toRm : list string)
  : M (list string) :=
  reg ← addLoop index toAdd regFwdIPs mdFwdIPs;
  rmLoop toRm reg.

(** The body of the loop of [set] once the MAC is parsed and the persisted
    record is read. *)
Definition setOnInterface (ifs : list (netInterface HW)) (ni : networkInterfaces)
    (mac : HW) (regFwdIPs : list string) : M unit :=
  let iface := findInterface ifs mac in
  if decide (zeroInterface = iface) then
    noteBadMAC (Mac ni) (LogNoInterface (hwString mac))
  else
    addrs ← callOS (Addrs iface);
    match addrs with
    | Failure err => logf (LogError err)
    | Value addrs =>
        let cfgIPs := map (λ addr, strings.TrimSuffix addr "/32") addrs in
        let '(toAdd, toRm) := compareIPs regFwdIPs (ForwardedIps ni) cfgIPs in
        (if decide (length toAdd ≠ 0 ∨ length toRm ≠ 0) then
           logf (LogChange (hwString mac) regFwdIPs (ForwardedIps ni) toAdd toRm)
         else mret tt);;
        reg ← nextPersisted (Index iface) regFwdIPs (ForwardedIps ni) toAdd toRm;
        err ← callOS (writeRegMultiString addressKey (hwString mac) reg);
        match err with
        | Some e => logf (LogError e)
        | None => mret tt
        end
    end.

(** One iteration of the loop of [set]; [continue] is the return. *)
Definition setInterface (ifs : list (netInterface HW)) (ni : networkInterfaces)
  : M unit :=
  match ParseMAC (Mac ni) with
  | Failure err => noteBadMAC (Mac ni) (LogError err)
  | Value mac =>
      r ← callOS (readRegMultiString addressKey (hwString mac));
      match r with
      | Failure err =>
          if decide (err = errRegNotExist) then setOnInterface ifs ni mac []
          else logf (LogError err)
      | Value regFwdIPs => setOnInterface ifs ni mac regFwdIPs
      end
  end.

Fixpoint setLoop (ifs : list (netInterface HW)) (nis : list networkInterfaces)
  : M unit :=
  match nis with
  | [] => mret tt
  | ni :: rest => setInterface ifs ni;; setLoop ifs rest
  end.

(** [set] returns its error, [None] for nil, and the receiver after the
    filter has written into it. *)
Definition set (a : addresses) : M (option error * addresses) :=
  r ← callOS Interfaces;
  match r with
  | Failure err => mret (Some err, a)
  | Value ifs =>
      a' ← applyWSFCFilter a;
      setLoop ifs (NetworkInterfaces (md_Instance (newMetadata a')));;
      mret (None, a')
  end.

End Agent.

Arguments Returns {_ _} a st.
Arguments Panics {_ _}.

(** ** A concrete platform for running the model

    A small scripted operating system: the interfaces, their addresses and
    the registry are data, and the adds and deletes that fail are listed.
    IPs are IPv4 dotted quads and MACs six colon-separated hex pairs. *)

Module TestPlatform.

Record testWorld : Type := mkWorld {
  tw_interfaces : goResult (list (netInterface string));
  tw_addrs : list (Z * list string);
  tw_registry : gmap string (list string);
  tw_addFails : list string;
  tw_deleteFails : list string
}.

Definition isDigit (c : ascii) : bool :=
  let n := nat_of_ascii c in (48 <=? n) && (n <=? 57).

Definition isHex (c : ascii) : bool :=
  let n := nat_of_ascii c in
  isDigit c || ((65 <=? n) && (n <=? 70)) || ((97 <=? n) && (n <=? 102)).

Definition lower (c : ascii) : ascii :=
  let n := nat_of_ascii c in
  if (65 <=? n) && (n <=? 90) then ascii_of_nat (n + 32) else c.

Fixpoint decimal (acc : nat) (s : string) : option nat :=
  match s with
  | EmptyString => Some acc
  | String c rest =>
      if isDigit c then decimal (10 * acc + (nat_of_ascii c - 48)) rest else None
  end.

(** One field of a dotted quad: one to three digits, no leading zero,
    at most 255. *)
Definition isOctet (s : string) : bool :=
  match s with
  | EmptyString => false
  | String c rest =>
      (String.length s <=? 3)
      && (bool_decide (rest = "") || negb (bool_decide (c = "0"%char)))
      && match decimal 0 s with
         | Some n => n <=? 255
         | None => false
         end
  end.

Definition parseIPv4 (s : string) : option string :=
  let fields := strings.Split s "." in
  if (length fields =? 4) && forallb isOctet fields then Some s else None.

Fixpoint allChars (p : ascii → bool) (s : string) : bool :=
  match s with
  | EmptyString => true
  | String c rest => p c && allChars p rest
  end.

Fixpoint mapChars (f : ascii → ascii) (s : string) : string :=
  match s with
  | EmptyString => EmptyString
  | String c rest => String (f c) (mapChars f rest)
  end.

Definition parseMAC (s : string) : goResult string :=
  let fields := strings.Split s ":" in
  if (length fields =? 6)
     && forallb (λ f, (String.length f =? 2) && allChars isHex f) fields
  then Value (mapChars lower s)
  else Failure (errOther ("address " +:+ s +:+ ": invalid MAC address")).

(** The strings go-ini reads as booleans. *)
Definition parseIniBool (s : string) : option bool :=
  if decide (s ∈ ["1"; "t"; "T"; "TRUE"; "true"; "True"; "YES"; "yes"; "Yes";
                  "y"; "ON"; "on"; "On"]) then Some true
  else if decide (s ∈ ["0"; "f"; "F"; "FALSE"; "false"; "False"; "NO"; "no";
                       "No"; "n"; "OFF"; "off"; "Off"]) then Some false
  else None.

#[global] Instance networkInterfaces_eq_dec : EqDecision networkInterfaces.
Proof. solve_decision. Defined.

Definition addrsOf (index : Z) (w : testWorld) : list string :=
  default [] (snd <$> List.find (λ p, bool_decide (fst p = index)) (tw_addrs w)).

Definition withAddrs (index : Z) (f : list string → list string) (w : testWorld)
  : testWorld :=
  mkWorld (tw_interfaces w)
    ((index, f (addrsOf index w))
       :: List.filter (λ p, negb (bool_decide (fst p = index))) (tw_addrs w))
    (tw_registry w) (tw_addFails w) (tw_deleteFails w).

Definition testAdd (ip mask : option string) (index : Z) (w : testWorld)
  : option error * testWorld :=
  match ip with
  | None => (Some (errOther "invalid IP"), w)
  | Some s =>
      if containsString s (tw_addFails w) then (Some (errOther "add failed"), w)
      else (None, withAddrs index (λ l, l ++ [s +:+ "/32"]) w)
  end.

Definition testDelete (ip : option string) (w : testWorld)
  : option error * testWorld :=
  match ip with
  | None => (Some (errOther "invalid IP"), w)
  | Some s =>
      if containsString s (tw_deleteFails w) then (Some (errOther "delete failed"), w)
      else (None,
            mkWorld (tw_interfaces w)
              (map (λ p, (fst p,
                          List.filter (λ a, negb (bool_decide (a = s +:+ "/32")))
                                      (snd p)))
                   (tw_addrs w))
              (tw_registry w) (tw_addFails w) (tw_deleteFails w))
  end.

Definition testRead (key name : string) (w : testWorld)
  : goResult (list string) * testWorld :=
  match tw_registry w !! name with
  | Some l => (Value l, w)
  | None => (Failure errRegNotExist, w)
  end.

Definition testWrite (key name : string) (value : list string) (w : testWorld)
  : option error * testWorld :=
  (None, mkWorld (tw_interfaces w) (tw_addrs w) (<[name := value]> (tw_registry w))
                 (tw_addFails w) (tw_deleteFails w)).

#[global] Instance platform : Platform := {|
  World := testWorld;
  IP := string;
  HW := string;
  nilHW := "";
  hwString := id;
  ParseMAC := parseMAC;
  ParseIP := parseIPv4;
  iniBool := parseIniBool;
  DeepEqual := λ l1 l2, bool_decide (l1 = l2);
  regKeyBase := "SOFTWARE\Google\ComputeEngine";
  Interfaces := λ w, (tw_interfaces w, w);
  Addrs := λ i w, (Value (addrsOf (Index i) w), w);
  readRegMultiString := testRead;
  writeRegMultiString := testWrite;
  addIPAddress := testAdd;
  deleteIPAddress := testDelete
|}.

(** One interface [nic] with the addresses [live], the persisted record
    [persisted] when there is one, and the failing adds and deletes. *)
Definition mac0 : string := "42:01:0a:00:00:02".

Definition nic : netInterface string := mkInterface 3%Z 1460%Z "Ethernet" mac0 0%N.

Definition world (persisted : option (list string)) (live addFails deleteFails : list string)
  : testWorld :=
  mkWorld (Value [nic]) [(3%Z, map (λ ip, ip +:+ "/32") live)]
    (match persisted with Some l => {[ mac0 := l ]} | None => ∅ end)
    addFails deleteFails.

Definition start (w : testWorld) : state := mkState w false "" false [] [].

Definition noAttrs : attributesJSON := mkAttributes "" "" "".

(** The receiver of a first cycle whose metadata declares [desired] on the
    interface: the old metadata is empty. *)
Definition agent (instance project : attributesJSON) (cfg : iniFile)
    (desired : list string) : addresses :=
  mkAddresses
    (mkMetadata (mkInstance instance [mkNetworkInterfaces mac0 desired])
                (mkProject project))
    (mkMetadata (mkInstance noAttrs []) (mkProject noAttrs))
    cfg.

Definition ip5 : string := "10.0.0.5".
Definition ip6 : string := "10.0.0.6".
Definition ip7 : string := "10.0.0.7".

(** The persisted record of [mac0] after the computation, when it returns. *)
Definition persistedAfter {A} (o : outcome A) : option (option (list string)) :=
  match o with
  | Returns _ st => Some (tw_registry (os st) !! mac0)
  | Panics => None
  end.

End TestPlatform.

(** ** Properties of the diff engine *)

Lemma containsString_elem_of (s : string) (ss : list string) :
  containsString s ss = true ↔ s ∈ ss.
Proof.
  induction ss as [|a rest IH]; simpl.
  - split; [discriminate | intros Hin; inversion Hin].
  - destruct (decide (a = s)) as [->|Hne].
    + split; [intros _; left | reflexivity].
    + rewrite IH, elem_of_cons. split; [tauto | intros [Heq | Hin]; congruence].
Qed.

Lemma containsString_not_elem_of (s : string) (ss : list string) :
  containsString s ss = false ↔ s ∉ ss.
Proof.
  rewrite <- containsString_elem_of. destruct (containsString s ss); split; congruence.
Qed.

Lemma elem_of_List_filter {A} (f : A → bool) (l : list A) (x : A) :
  x ∈ List.filter f l ↔ x ∈ l ∧ f x = true.
Proof. rewrite !list_elem_of_In. apply filter_In. Qed.

Lemma elem_of_toRm (regFwdIPs mdFwdIPs cfgIPs : list string) (ip : string) :
  ip ∈ (compareIPs regFwdIPs mdFwdIPs cfgIPs).2
  ↔ ip ∈ cfgIPs ∧ ip ∈ regFwdIPs ∧ ip ∉ mdFwdIPs.
Proof.
  unfold compareIPs; simpl.
  rewrite elem_of_List_filter, andb_true_iff, negb_true_iff.
  by rewrite containsString_elem_of, containsString_not_elem_of.
Qed.

(** C1. Every address of the remove-set of [compareIPs] is both in the
    persisted list and in the live list, and is not in the desired list; so an
    address that is live but was never persisted is not removed. *)
Theorem compareIPs_toRm_owned (regFwdIPs mdFwdIPs cfgIPs : list string) (ip : string) :
  ip ∈ (compareIPs regFwdIPs mdFwdIPs cfgIPs).2 →
  ip ∈ regFwdIPs ∧ ip ∈ cfgIPs ∧ ip ∉ mdFwdIPs.
Proof. rewrite elem_of_toRm. tauto. Qed.

Lemma compareIPs_toRm_owned_witness :
  "10.0.0.5" ∈ (compareIPs ["10.0.0.5"] ["10.0.0.6"] ["10.0.0.5"; "192.168.1.9"]).2
  ∧ ("10.0.0.5" ∈ ["10.0.0.5"] ∧ "10.0.0.5" ∈ ["10.0.0.5"; "192.168.1.9"]
     ∧ "10.0.0.5" ∉ ["10.0.0.6"]).
Proof.
  assert (Hin : "10.0.0.5"
                ∈ (compareIPs ["10.0.0.5"] ["10.0.0.6"] ["10.0.0.5"; "192.168.1.9"]).2).
  { vm_compute. left. }
  split; [exact Hin|].
  exact (compareIPs_toRm_owned _ _ _ _ Hin).
Defined.

(** A foreign address, live but never persisted, is left alone. *)
Corollary compareIPs_foreign_untouched (regFwdIPs mdFwdIPs cfgIPs : list string)
    (ip : string) :
  ip ∉ regFwdIPs → ip ∉ (compareIPs regFwdIPs mdFwdIPs cfgIPs).2.
Proof.
  rewrite elem_of_toRm. tauto. Qed.

Lemma filter_not_contained (l k : list string) :
  List.filter (λ x, negb (containsString x k)) l = list_difference l k.
Proof.
  induction l as [|x l IH]; simpl; [done|].
  rewrite IH. destruct (decide_rel elem_of x k) as [Hin|Hnot].
  - apply containsString_elem_of in Hin. by rewrite Hin.
  - apply containsString_not_elem_of in Hnot. by rewrite Hnot.
Qed.

Lemma toAdd_list_difference (regFwdIPs mdFwdIPs cfgIPs : list string) :
  (compareIPs regFwdIPs mdFwdIPs cfgIPs).1 = list_difference mdFwdIPs cfgIPs.
Proof. unfold compareIPs; simpl. apply filter_not_contained. Qed.

(** C5. The add-set of [compareIPs] is the list difference of the desired
    list and the live list: an address is added exactly when it is desired and
    not live, and the persisted list plays no part. *)
Theorem compareIPs_toAdd_difference (regFwdIPs regFwdIPs' mdFwdIPs cfgIPs : list string) :
  (compareIPs regFwdIPs mdFwdIPs cfgIPs).1 = list_difference mdFwdIPs cfgIPs
  ∧ (∀ ip, ip ∈ (compareIPs regFwdIPs mdFwdIPs cfgIPs).1 ↔ ip ∈ mdFwdIPs ∧ ip ∉ cfgIPs)
  ∧ (compareIPs regFwdIPs mdFwdIPs cfgIPs).1 = (compareIPs regFwdIPs' mdFwdIPs cfgIPs).1.
Proof.
  split; [apply toAdd_list_difference|]. split.
  - intros ip. rewrite toAdd_list_difference. apply list_elem_of_difference.
  - by rewrite !toAdd_list_difference.
Qed.

(** ** Properties of the resolvers, the change detector and the filter *)

(** The precedence rule in the words of the specification: the sources are
    tried in order, the first one that parses wins, and the fallback is the
    value when none parses. *)
Fixpoint firstParseable (sources : list (option bool)) (fallback : bool) : bool :=
  match sources with
  | [] => fallback
  | Some b :: _ => b
  | None :: lower => firstParseable lower fallback
  end.

Section Properties.

Context `{Platform}.

(** C7. [parseWSFCEnable] and [disabled] return the value of the first of
    local override, instance attribute and project attribute that parses as
    a boolean, an unparseable source being passed over; with no parseable
    source the enable flag is false and the disabled flag is the remembered
    one. Both are total: [disabled] always returns, it never panics. *)
Theorem resolvers_first_parseable (a : addresses) (st : state) :
  parseWSFCEnable a
  = firstParseable [iniBool (keyString (config a) "wsfc" "enable");
                    strconv.ParseBool (EnableWSFC (instAttrs a));
                    strconv.ParseBool (EnableWSFC (projAttrs a))] false
  ∧ ∃ st', disabled a st
           = Returns
               (firstParseable
                  [strconv.ParseBool (keyString (config a) "addressManager" "disable");
                   strconv.ParseBool (DisableAddressManager (instAttrs a));
                   strconv.ParseBool (DisableAddressManager (projAttrs a))]
                  (addressDisabled st))
               st'.
Proof.
  split.
  - unfold parseWSFCEnable; simpl.
    destruct (iniBool _); [done|]. destruct (strconv.ParseBool _); [done|].
    by destruct (strconv.ParseBool _).
  - assert (Hres : disabledResult a st
                   = firstParseable
                       [strconv.ParseBool (keyString (config a) "addressManager" "disable");
                        strconv.ParseBool (DisableAddressManager (instAttrs a));
                        strconv.ParseBool (DisableAddressManager (projAttrs a))]
                       (addressDisabled st)).
    { unfold disabledResult; simpl.
      destruct (strconv.ParseBool _); [done|]. destruct (strconv.ParseBool _); [done|].
      by destruct (strconv.ParseBool _). }
    unfold disabled. rewrite <- Hres.
    destruct (decide (disabledResult a st ≠ addressDisabled st)); eauto.
Qed.

(** The disable gate is what refreshes the remembered disabled flag. *)
Lemma disabled_remembers (a : addresses) (st : state) :
  ∃ st', disabled a st = Returns (disabledResult a st) st'
         ∧ addressDisabled st' = disabledResult a st.
Proof.
  unfold disabled.
  destruct (decide (disabledResult a st ≠ addressDisabled st)) as [Hne|Heq].
  - eexists; split; [done|]. done.
  - eexists; split; [done|]. by destruct (decide (disabledResult a st = addressDisabled st)).
Qed.

(** C8, as amended. Every call of [diff] sets the remembered failover
    address list and the remembered failover enable flag to the values
    resolved from the current snapshot, whatever it returns, and leaves the
    remembered disabled flag as it was. *)
Theorem diff_remembers_wsfc (a : addresses) (st : state) :
  ∃ changed st',
    diff a st = Returns changed st'
    ∧ oldWSFCAddresses st' = parseWSFCAddresses a
    ∧ oldWSFCEnable st' = parseWSFCEnable a
    ∧ addressDisabled st' = addressDisabled st.
Proof. unfold diff. eexists _, _. split; [reflexivity|]. done. Qed.

(** The exclusion list the filter builds from the attribute: the entries
    between commas that are not empty and parse as an IP. *)
Definition validWSFCAddr (wsfcAddr : string) : bool :=
  negb (String.length wsfcAddr =? 0) && bool_decide (is_Some (ParseIP wsfcAddr)).

Definition wsfcAddrsOf (attribute : string) : list string :=
  List.filter validWSFCAddr (strings.Split attribute ",").

Lemma wsfcAddrsLoop_returns (fields wsfcAddrs : list string) (st : state) :
  ∃ st', wsfcAddrsLoop fields wsfcAddrs st
         = Returns (wsfcAddrs ++ List.filter validWSFCAddr fields) st'
         ∧ os st' = os st ∧ badMAC st' = badMAC st.
Proof.
  revert wsfcAddrs st.
  induction fields as [|wsfcAddr rest IH]; intros wsfcAddrs st; simpl.
  - exists st. by rewrite app_nil_r.
  - unfold validWSFCAddr at 1.
    destruct (decide (String.length wsfcAddr = 0)) as [Hz|Hnz].
    + rewrite Hz; simpl. apply IH.
    + apply Nat.eqb_neq in Hnz as ->; simpl.
      destruct (ParseIP wsfcAddr) as [ip|] eqn:Hip.
      * rewrite bool_decide_true by eauto.
        destruct (IH (wsfcAddrs ++ [wsfcAddr]) st) as (st' & -> & Hos & Hbad).
        rewrite <- (assoc_L (++)). by exists st'.
      * rewrite bool_decide_false by (intros [? ?]; congruence).
        unfold mbind, M_bind, logf.
        destruct (IH wsfcAddrs (withLog (LogBadWSFCAddress wsfcAddr) st))
          as (st' & -> & Hos & Hbad). by exists st'.
Qed.

(** C4. With a non-empty exclusion list the filter takes exactly the listed
    addresses out of every interface's forwarded IPs, whatever the enable
    flag says; with an empty list and the flag true it clears every
    interface's forwarded IPs; otherwise the interfaces are unchanged. *)
Theorem applyWSFCFilter_policy (a : addresses) (st : state) :
  ∃ a' st',
    applyWSFCFilter a st = Returns a' st'
    ∧ let wsfcAddrs := wsfcAddrsOf (WSFCAddresses (instAttrs a)) in
      let interfaces := NetworkInterfaces (md_Instance (newMetadata a)) in
      NetworkInterfaces (md_Instance (newMetadata a'))
      = match wsfcAddrs, strconv.ParseBool (EnableWSFC (instAttrs a)) with
        | _ :: _, _ =>
            map (λ ni, mkNetworkInterfaces (Mac ni)
                         (list_difference (ForwardedIps ni) wsfcAddrs)) interfaces
        | [], Some true => map (λ ni, mkNetworkInterfaces (Mac ni) []) interfaces
        | [], _ => interfaces
        end.
Proof.
  unfold applyWSFCFilter, mbind, M_bind.
  destruct (wsfcAddrsLoop_returns (strings.Split (WSFCAddresses (instAttrs a)) ",") [] st)
    as (st' & -> & _ & _).
  simpl. fold (wsfcAddrsOf (WSFCAddresses (instAttrs a))).
  destruct (wsfcAddrsOf (WSFCAddresses (instAttrs a))) as [|wsfcAddr wsfcAddrs] eqn:Hl.
  - simpl. destruct (strconv.ParseBool (EnableWSFC (instAttrs a))) as [[|]|];
      eexists _, _; (split; [reflexivity|]); done.
  - simpl. eexists _, _. split; [reflexivity|]. simpl.
    apply map_ext. intros ni. f_equal.
    apply (filter_not_contained (ForwardedIps ni) (wsfcAddr :: wsfcAddrs)).
Qed.

End Properties.

(** ** Properties of the apply loop *)

Section ApplyLoop.

Context `{Platform}.

(** The remove loop always returns, with the failed removes appended. *)
Lemma rmLoop_returns (toRm reg : list string) (st : state) :
  ∃ failed st',
    rmLoop toRm reg st = Returns (reg ++ failed) st' ∧ failed `sublist_of` toRm.
Proof.
  revert reg st. induction toRm as [|ip rest IH]; intros reg st; simpl.
  - exists [], st. by rewrite app_nil_r.
  - unfold mbind, M_bind, callOS.
    destruct (deleteIPAddress (ParseIP ip) (os st)) as [[e|] w]; simpl.
    + destruct (IH (reg ++ [ip]) (withLog (LogError e) (withOS w st)))
        as (failed & st' & -> & Hsub).
      exists (ip :: failed), st'. rewrite <- (assoc_L (++)). split; [done|].
      by apply sublist_skip.
    + destruct (IH reg (withOS w st)) as (failed & st' & -> & Hsub).
      exists failed, st'. split; [done|]. by apply sublist_cons.
Qed.

Lemma rmLoop_app (pre post reg : list string) (st : state) :
  rmLoop (pre ++ post) reg st
  = match rmLoop pre reg st with
    | Returns reg1 st1 => rmLoop post reg1 st1
    | Panics => Panics
    end.
Proof.
  revert reg st. induction pre as [|ip pre IH]; intros reg st; simpl; [done|].
  unfold mbind, M_bind, callOS.
  destruct (deleteIPAddress (ParseIP ip) (os st)) as [[e|] w]; simpl; apply IH.
Qed.

(** A remove that fails puts its address into [reg], where it stays. *)
Lemma rmLoop_keeps_failed (pre post reg reg1 : list string) (ip : string)
    (st st1 : state) (e : error) (w : World) :
  rmLoop pre reg st = Returns reg1 st1 →
  deleteIPAddress (ParseIP ip) (os st1) = (Some e, w) →
  ∃ reg' st', rmLoop (pre ++ ip :: post) reg st = Returns reg' st' ∧ ip ∈ reg'.
Proof.
  intros Hpre Hdel. rewrite rmLoop_app, Hpre. simpl.
  unfold mbind, M_bind, callOS. rewrite Hdel. simpl.
  destruct (rmLoop_returns post (reg1 ++ [ip]) (withLog (LogError e) (withOS w st1)))
    as (failed & st' & -> & _).
  eexists _, _. split; [done|]. set_solver.
Qed.

(** The state in which the add loop starts when there is something to
    remove: the addresses are read and the change is logged. *)
Definition changeLogged (ni : networkInterfaces) (mac : HW)
    (regFwdIPs toAdd toRm : list string) (w : World) (st : state) : state :=
  withLog (LogChange (hwString mac) regFwdIPs (ForwardedIps ni) toAdd toRm)
          (withOS w st).

(** C9. When the remove of an address of the remove-set fails, the address
    is appended to [reg], and the record the cycle then writes for the
    interface contains it: the iteration returns, and its last effect on the
    world is the write of a list that holds the address. *)
Theorem failed_remove_stays_persisted
    (ifs : list (netInterface HW)) (ni : networkInterfaces) (mac : HW)
    (regFwdIPs addrs toAdd pre post reg0 reg1 : list string) (ip : string)
    (st st0 st1 : state) (w w1 : World) (e : error) :
  zeroInterface ≠ findInterface ifs mac →
  Addrs (findInterface ifs mac) (os st) = (Value addrs, w) →
  compareIPs regFwdIPs (ForwardedIps ni)
             (map (λ addr, strings.TrimSuffix addr "/32") addrs)
  = (toAdd, pre ++ ip :: post) →
  addLoop (Index (findInterface ifs mac)) toAdd regFwdIPs (ForwardedIps ni)
          (changeLogged ni mac regFwdIPs toAdd (pre ++ ip :: post) w st)
  = Returns reg0 st0 →
  rmLoop pre reg0 st0 = Returns reg1 st1 →
  deleteIPAddress (ParseIP ip) (os st1) = (Some e, w1) →
  ∃ reg st2 st3,
    ip ∈ reg
    ∧ setOnInterface ifs ni mac regFwdIPs st = Returns tt st3
    ∧ os st3 = (writeRegMultiString addressKey (hwString mac) reg (os st2)).2.
Proof.
  intros Hfound Haddrs Hcmp Hadd Hpre Hdel.
  destruct (rmLoop_keeps_failed pre post reg0 reg1 ip st0 st1 e w1 Hpre Hdel)
    as (reg & st2 & Hrm & Hin).
  unfold setOnInterface. rewrite decide_False by done.
  unfold mbind, M_bind, callOS. rewrite Haddrs. cbv beta iota zeta. rewrite Hcmp.
  rewrite decide_True by (right; rewrite length_app; simpl; lia).
  unfold logf at 1. unfold nextPersisted, mbind, M_bind.
  unfold changeLogged in Hadd. rewrite Hadd, Hrm.
  destruct (writeRegMultiString addressKey (hwString mac) reg (os st2))
    as [[e'|] w'] eqn:Hw; simpl.
  - exists reg, st2, (withLog (LogError e') (withOS w' st2)).
    rewrite Hw. by split.
  - exists reg, st2, (withOS w' st2). rewrite Hw. by split.
Qed.



(** When no add fails, the add loop returns and leaves [reg] as it is. *)
Lemma addLoop_without_failure (index : Z) (toAdd regFwdIPs reg : list string)
    (st : state) :
  (∀ ip w, (addIPAddress (ParseIP ip) (ParseIP "255.255.255.255") index w).1 = None) →
  ∃ st', addLoop index toAdd regFwdIPs reg st = Returns reg st'.
Proof.
  intros Hok. revert st. induction toAdd as [|ip rest IH]; intros st; simpl.
  - by exists st.
  - unfold mbind, M_bind, callOS. specialize (Hok ip (os st)).
    destruct (addIPAddress _ _ index (os st)) as [err w]. simpl in Hok. subst err.
    simpl. apply IH.
Qed.

(** When an add fails and the address sits in [reg] at or past the length
    of the persisted list, the slice expression is out of range. *)
Lemma addLoop_failure_out_of_range (index : Z) (ip : string)
    (rest regFwdIPs reg : list string) (st : state) (e : error) (w : World) (i : nat) :
  addIPAddress (ParseIP ip) (ParseIP "255.255.255.255") index (os st) = (Some e, w) →
  indexOf ip reg = Some i →
  length regFwdIPs ≤ i →
  addLoop index (ip :: rest) regFwdIPs reg st = Panics.
Proof.
  intros Hadd Hidx Hlen. simpl. unfold mbind, M_bind, callOS, logf.
  rewrite Hadd. simpl. rewrite Hidx. unfold appendWithout.
  rewrite decide_False by lia. done.
Qed.

End ApplyLoop.

(** ** The model run on the scripted platform *)

Import TestPlatform.

Example scenario_A : compareIPs [ip5] [ip6] [ip5] = ([ip6], [ip5]).
Proof. reflexivity. Qed.

Example scenario_B : compareIPs [] [] ["192.168.1.9"] = ([], []).
Proof. reflexivity. Qed.

(** A cycle in which every add and remove succeeds persists the desired list. *)
Example cycle_without_failure :
  persistedAfter (set (agent noAttrs noAttrs ∅ [ip6]) (start (world (Some [ip5]) [ip5] [] [])))
  = Some (Some [ip6]).
Proof. vm_compute. reflexivity. Qed.

(** Remove of 10.0.0.5 fails: the record written keeps it. *)
Definition scenarioD : state := start (world (Some [ip5]) [ip5] [] [ip5]).

Definition niD : networkInterfaces := mkNetworkInterfaces mac0 [].

Definition scenarioD_logged : state :=
  changeLogged niD mac0 [ip5] [] [ip5] (os scenarioD) scenarioD.

Lemma failed_remove_stays_persisted_witness :
  zeroInterface ≠ findInterface [nic] mac0
  ∧ Addrs (findInterface [nic] mac0) (os scenarioD) = (Value [ip5 +:+ "/32"], os scenarioD)
  ∧ compareIPs [ip5] (ForwardedIps niD)
               (map (λ addr, strings.TrimSuffix addr "/32") [ip5 +:+ "/32"])
    = ([], [] ++ ip5 :: [])
  ∧ addLoop (Index (findInterface [nic] mac0)) [] [ip5] (ForwardedIps niD)
            scenarioD_logged
    = Returns [] scenarioD_logged
  ∧ rmLoop [] [] scenarioD_logged = Returns [] scenarioD_logged
  ∧ deleteIPAddress (ParseIP ip5) (os scenarioD_logged)
    = (Some (errOther "delete failed"), os scenarioD_logged)
  ∧ ∃ reg st2 st3,
      ip5 ∈ reg
      ∧ setOnInterface [nic] niD mac0 [ip5] scenarioD = Returns tt st3
      ∧ os st3 = (writeRegMultiString addressKey (hwString mac0) reg (os st2)).2.
Proof.
  assert (H1 : zeroInterface ≠ findInterface [nic] mac0) by (vm_compute; discriminate).
  assert (H2 : Addrs (findInterface [nic] mac0) (os scenarioD)
               = (Value [ip5 +:+ "/32"], os scenarioD)) by reflexivity.
  assert (H3 : compareIPs [ip5] (ForwardedIps niD)
                 (map (λ addr, strings.TrimSuffix addr "/32") [ip5 +:+ "/32"])
               = ([], [] ++ ip5 :: [])) by reflexivity.
  assert (H4 : addLoop (Index (findInterface [nic] mac0)) [] [ip5] (ForwardedIps niD)
                 scenarioD_logged
               = Returns [] scenarioD_logged) by reflexivity.
  assert (H5 : rmLoop [] [] scenarioD_logged = Returns [] scenarioD_logged)
    by reflexivity.
  assert (H6 : deleteIPAddress (ParseIP ip5) (os scenarioD_logged)
               = (Some (errOther "delete failed"), os scenarioD_logged)) by reflexivity.
  repeat (split; [assumption|]).
  exact (failed_remove_stays_persisted [nic] niD mac0 [ip5] [ip5 +:+ "/32"] [] [] []
           [] [] ip5 scenarioD scenarioD_logged scenarioD_logged (os scenarioD)
           (os scenarioD_logged) (errOther "delete failed") H1 H2 H3 H4 H5 H6).
Defined.

Example scenario_D :
  persistedAfter (set (agent noAttrs noAttrs ∅ []) scenarioD) = Some (Some [ip5]).
Proof. vm_compute. reflexivity. Qed.

(** C2. The record written after a failed add is cut out of the previously
    persisted list, not out of the desired list. With 10.0.0.7 and 10.0.0.6
    persisted, 10.0.0.6 and 10.0.0.7 desired, none live and the add of
    10.0.0.6 failing, [set] persists 10.0.0.6, the address that failed, and
    drops 10.0.0.7, which was added. With 10.0.0.5 persisted and live and the
    same desired list, it persists nothing, although 10.0.0.7 was added. *)
Theorem failed_add_writes_wrong_record :
  persistedAfter (set (agent noAttrs noAttrs ∅ [ip6; ip7])
                      (start (world (Some [ip7; ip6]) [] [ip6] [])))
  = Some (Some [ip6])
  ∧ persistedAfter (set (agent noAttrs noAttrs ∅ [ip6; ip7])
                        (start (world (Some [ip5]) [ip5] [ip6] [])))
    = Some (Some []).
Proof. split; vm_compute; reflexivity. Qed.

(** C3. The filter reads the instance attributes only. A failover address
    list given by the local override alone is the resolved list, yet the
    filter leaves the listed address in place; a failover enable flag given by
    the project attributes alone resolves to true, yet the filter clears
    nothing. *)
Theorem filter_ignores_resolved_settings :
  let byOverride := agent noAttrs noAttrs {[ ("wsfc", "addresses") := ip5 ]} [ip5; ip6] in
  let byProject := agent noAttrs (mkAttributes "" "true" "") ∅ [ip5; ip6] in
  let st := start (world None [] [] []) in
  (parseWSFCAddresses byOverride = ip5
   ∧ applyWSFCFilter byOverride st = Returns byOverride st)
  ∧ (parseWSFCEnable byProject = true
     ∧ applyWSFCFilter byProject st = Returns byProject st).
Proof. repeat split; vm_compute; reflexivity. Qed.

(** C6. Interface enumeration succeeds, one add fails, and [set] does not
    return: with 10.0.0.5 persisted and live, 10.0.0.5 and 10.0.0.6 desired
    and the add of 10.0.0.6 failing, the failure handling slices the persisted
    list of length one at index two and the runtime panics. *)
Theorem set_panics_on_failed_add :
  let st := start (world (Some [ip5]) [ip5] [ip6] []) in
  Interfaces (os st) = (Value [nic], os st)
  ∧ set (agent noAttrs noAttrs ∅ [ip5; ip6]) st = Panics.
Proof. split; vm_compute; reflexivity. Qed.

(** C8, as stated, fails: with the instance attribute disabling the address
    manager and the remembered flag false, the resolved disabled flag is true
    and [diff] leaves the remembered one false. *)
Lemma diff_leaves_disabled_flag_stale :
  ∃ changed st',
    diff (agent (mkAttributes "" "" "true") noAttrs ∅ [ip5]) (start (world None [] [] []))
    = Returns changed st'
    ∧ disabledResult (agent (mkAttributes "" "" "true") noAttrs ∅ [ip5])
                     (start (world None [] [] []))
      = true
    ∧ addressDisabled st' = false.
Proof. eexists _, _. repeat split; vm_compute; reflexivity. Qed.

(** C10. The add-failure handling slices out of range: with no persisted
    record, 10.0.0.6 desired and its add failing, the address is found at
    index 0 of the desired list, the empty persisted list is sliced from
    index 1, and [set] panics. *)
Theorem failed_add_slices_out_of_range :
  indexOf ip6 [ip6] = Some 0
  ∧ appendWithout [] 0 = None
  ∧ set (agent noAttrs noAttrs ∅ [ip6]) (start (world None [] [ip6] [])) = Panics.
Proof. repeat split; vm_compute; reflexivity. Qed.

(** ** Further properties of the diff engine *)

Lemma elem_of_toAdd (regFwdIPs mdFwdIPs cfgIPs : list string) (ip : string) :
  ip ∈ (compareIPs regFwdIPs mdFwdIPs cfgIPs).1 ↔ ip ∈ mdFwdIPs ∧ ip ∉ cfgIPs.
Proof. rewrite toAdd_list_difference. apply list_elem_of_difference. Qed.

Lemma List_filter_sublist {A} (f : A → bool) (l : list A) :
  List.filter f l `sublist_of` l.
Proof.
  induction l as [|x l IH]; simpl; [done|].
  destruct (f x); [by apply sublist_skip | by apply sublist_cons].
Qed.

Lemma compareIPs_pair (regFwdIPs mdFwdIPs cfgIPs : list string) :
  compareIPs regFwdIPs mdFwdIPs cfgIPs
  = ((compareIPs regFwdIPs mdFwdIPs cfgIPs).1, (compareIPs regFwdIPs mdFwdIPs cfgIPs).2).
Proof. reflexivity. Qed.

(** When the desired list and the live list have the same members, there is
    nothing to add and nothing to remove, whatever was persisted. *)
Theorem compareIPs_same_members (regFwdIPs mdFwdIPs cfgIPs : list string) :
  (∀ ip, ip ∈ mdFwdIPs ↔ ip ∈ cfgIPs) →
  compareIPs regFwdIPs mdFwdIPs cfgIPs = ([], []).
Proof.
  intros Hsame. rewrite compareIPs_pair. f_equal.
  - apply elem_of_nil_inv. intros ip. rewrite elem_of_toAdd, Hsame. tauto.
  - apply elem_of_nil_inv. intros ip. rewrite elem_of_toRm, Hsame. tauto.
Qed.

Lemma compareIPs_same_members_witness :
  (∀ ip, ip ∈ [ip5; ip6] ↔ ip ∈ [ip6; ip5; ip6])
  ∧ compareIPs [ip7] [ip5; ip6] [ip6; ip5; ip6] = ([], []).
Proof.
  assert (Hsame : ∀ ip, ip ∈ [ip5; ip6] ↔ ip ∈ [ip6; ip5; ip6]).
  { intros ip. rewrite !elem_of_cons, !elem_of_nil. tauto. }
  split; [exact Hsame|].
  exact (compareIPs_same_members [ip7] [ip5; ip6] [ip6; ip5; ip6] Hsame).
Defined.

(** The add-set keeps the order of the desired list and the remove-set that
    of the live list, and no address is in both: what is added is never
    removed in the same cycle. *)
Theorem compareIPs_sublists_disjoint (regFwdIPs mdFwdIPs cfgIPs : list string) :
  (compareIPs regFwdIPs mdFwdIPs cfgIPs).1 `sublist_of` mdFwdIPs
  ∧ (compareIPs regFwdIPs mdFwdIPs cfgIPs).2 `sublist_of` cfgIPs
  ∧ Forall (λ ip, ip ∉ (compareIPs regFwdIPs mdFwdIPs cfgIPs).2)
           (compareIPs regFwdIPs mdFwdIPs cfgIPs).1.
Proof.
  split; [apply List_filter_sublist|]. split; [apply List_filter_sublist|].
  apply Forall_forall. intros ip. rewrite elem_of_toAdd, elem_of_toRm. tauto.
Qed.

(** Convergence: once the adds and removes of a cycle are in effect (the
    live list holds what was live and not removed, and what was added) and
    the desired list is persisted, the next comparison asks for nothing. *)
Theorem compareIPs_converges (regFwdIPs mdFwdIPs cfgIPs cfgIPs' : list string) :
  (∀ ip, ip ∈ cfgIPs'
         ↔ (ip ∈ cfgIPs ∧ ip ∉ (compareIPs regFwdIPs mdFwdIPs cfgIPs).2)
           ∨ ip ∈ (compareIPs regFwdIPs mdFwdIPs cfgIPs).1) →
  compareIPs mdFwdIPs mdFwdIPs cfgIPs' = ([], []).
Proof.
  intros Hlive. rewrite compareIPs_pair. f_equal.
  - apply elem_of_nil_inv. intros ip. rewrite elem_of_toAdd, Hlive.
    rewrite elem_of_toAdd, elem_of_toRm.
    destruct (decide (ip ∈ cfgIPs)); tauto.
  - apply elem_of_nil_inv. intros ip. rewrite elem_of_toRm. tauto.
Qed.

Lemma compareIPs_converges_witness :
  (∀ ip, ip ∈ [ip6]
         ↔ (ip ∈ [ip5] ∧ ip ∉ (compareIPs [ip5] [ip6] [ip5]).2)
           ∨ ip ∈ (compareIPs [ip5] [ip6] [ip5]).1)
  ∧ compareIPs [ip6] [ip6] [ip6] = ([], []).
Proof.
  assert (Hlive : ∀ ip, ip ∈ [ip6]
                        ↔ (ip ∈ [ip5] ∧ ip ∉ (compareIPs [ip5] [ip6] [ip5]).2)
                          ∨ ip ∈ (compareIPs [ip5] [ip6] [ip5]).1).
  { intros ip. change (compareIPs [ip5] [ip6] [ip5]) with ([ip6], [ip5]). simpl.
    rewrite !elem_of_cons, !elem_of_nil. tauto. }
  split; [exact Hlive|].
  exact (compareIPs_converges [ip5] [ip6] [ip5] [ip6] Hlive).
Defined.

(** With nothing desired, nothing is added and the remove-set is the live
    addresses that were persisted, in the order of the live list: the
    agent's own addresses are cleaned up and only those. *)
Theorem compareIPs_nothing_desired (regFwdIPs cfgIPs : list string) :
  compareIPs regFwdIPs [] cfgIPs = ([], list_intersection cfgIPs regFwdIPs).
Proof.
  unfold compareIPs; simpl. f_equal.
  induction cfgIPs as [|ip rest IH]; simpl; [done|].
  rewrite IH, andb_true_r. destruct (decide_rel elem_of ip regFwdIPs) as [Hin|Hnot].
  - apply containsString_elem_of in Hin. by rewrite Hin.
  - apply containsString_not_elem_of in Hnot. by rewrite Hnot.
Qed.

(** ** Further properties of the resolvers, the change detector and the
    disable gate *)

(** The first string of the list that is not empty, the empty string when
    there is none. *)
Fixpoint firstNonEmpty (sources : list string) : string :=
  match sources with
  | [] => ""
  | s :: lower => if decide (s = "") then firstNonEmpty lower else s
  end.

Lemma length_pos_non_empty (s : string) : 0 < String.length s ↔ s ≠ "".
Proof. destruct s; simpl; split; (done || lia). Qed.

Lemma decide_length_pos {A} (s : string) (x y : A) :
  (if decide (0 < String.length s) then x else y)
  = (if decide (s = "") then y else x).
Proof.
  destruct (decide (0 < String.length s)) as [Hpos|Hpos];
    rewrite length_pos_non_empty in Hpos.
  - by rewrite decide_False.
  - apply dec_stable in Hpos. by rewrite decide_True.
Qed.

Section Resolvers.

Context `{Platform}.

(** The failover address list is the first non-empty one of local override,
    instance attribute and project attribute; it is empty only when all three
    are. *)
Theorem parseWSFCAddresses_first_non_empty (a : addresses) :
  parseWSFCAddresses a
  = firstNonEmpty [keyString (config a) "wsfc" "addresses";
                   WSFCAddresses (instAttrs a);
                   WSFCAddresses (projAttrs a)]
  ∧ (parseWSFCAddresses a = ""
     ↔ keyString (config a) "wsfc" "addresses" = ""
       ∧ WSFCAddresses (instAttrs a) = ""
       ∧ WSFCAddresses (projAttrs a) = "").
Proof.
  unfold parseWSFCAddresses; simpl. rewrite !decide_length_pos.
  split; [done|].
  repeat case_decide; intuition congruence.
Qed.


(** [diff] reports no change exactly when the interface lists are deeply
    equal and both resolved failover settings are the remembered ones; it
    never touches the world, the bad-MAC list or the log. *)
Theorem diff_false_iff (a : addresses) (st : state) :
  ∃ changed st',
    diff a st = Returns changed st'
    ∧ (changed = false
       ↔ DeepEqual (NetworkInterfaces (md_Instance (newMetadata a)))
                   (NetworkInterfaces (md_Instance (oldMetadata a))) = true
         ∧ parseWSFCEnable a = oldWSFCEnable st
         ∧ parseWSFCAddresses a = oldWSFCAddresses st)
    ∧ os st' = os st ∧ badMAC st' = badMAC st ∧ logged st' = logged st.
Proof.
  eexists _, _. split; [reflexivity|]. split; [|done].
  rewrite !orb_false_iff, !negb_false_iff, !bool_decide_eq_true. tauto.
Qed.

(** The status is logged on the edge only: [disabled] logs one status entry
    when its result differs from the remembered flag and none otherwise, and
    a second call right after the first returns the same value and changes
    nothing. It never touches the world or the bad-MAC list. *)
Theorem disabled_edge_triggered (a : addresses) (st : state) :
  ∃ st1,
    disabled a st = Returns (disabledResult a st) st1
    ∧ disabled a st1 = Returns (disabledResult a st) st1
    ∧ logged st1
      = logged st ++ (if decide (disabledResult a st = addressDisabled st)
                      then [] else [LogStatus "address" (disabledResult a st)])
    ∧ os st1 = os st ∧ badMAC st1 = badMAC st.
Proof.
  assert (Hstable : ∀ st1, addressDisabled st1 = disabledResult a st →
                           disabledResult a st1 = disabledResult a st).
  { intros st1. unfold disabledResult.
    destruct (strconv.ParseBool _); [done|]. destruct (strconv.ParseBool _); [done|].
    by destruct (strconv.ParseBool _). }
  assert (Hquiet : ∀ st1, addressDisabled st1 = disabledResult a st →
                          disabled a st1 = Returns (disabledResult a st) st1).
  { intros st1 Hst1. unfold disabled. rewrite (Hstable st1 Hst1).
    by rewrite decide_False by (intros Hne; by apply Hne). }
  destruct (decide (disabledResult a st = addressDisabled st)) as [Heq|Hne].
  - exists st. rewrite app_nil_r. by rewrite Hquiet.
  - exists (withLog (LogStatus "address" (disabledResult a st))
                    (withAddressDisabled (disabledResult a st) st)).
    split; [unfold disabled; by rewrite decide_True|].
    split; [by apply Hquiet | done].
Qed.

End Resolvers.

(** ** Further properties of the failover filter *)

Lemma List_filter_idemp {A} (f : A → bool) (l : list A) :
  List.filter f (List.filter f l) = List.filter f l.
Proof.
  induction l as [|x l IH]; simpl; [done|].
  destruct (f x) eqn:Hx; simpl; [|done]. by rewrite Hx, IH.
Qed.

Section Filter.

Context `{Platform}.

(** The entries of the attribute the first loop rejects with a log line. *)
Definition rejectedWSFCAddr (wsfcAddr : string) : bool :=
  negb (String.length wsfcAddr =? 0) && negb (bool_decide (is_Some (ParseIP wsfcAddr))).

Definition withLogs (es : list logEntry) (st : state) : state :=
  fold_left (λ s e, withLog e s) es st.

Lemma withLogs_frame (es : list logEntry) (st : state) :
  os (withLogs es st) = os st
  ∧ addressDisabled (withLogs es st) = addressDisabled st
  ∧ oldWSFCAddresses (withLogs es st) = oldWSFCAddresses st
  ∧ oldWSFCEnable (withLogs es st) = oldWSFCEnable st
  ∧ badMAC (withLogs es st) = badMAC st
  ∧ logged (withLogs es st) = logged st ++ es.
Proof.
  revert st. induction es as [|e es IH]; intros st; simpl.
  - by rewrite app_nil_r.
  - destruct (IH (withLog e st)) as (-> & -> & -> & -> & -> & ->). simpl.
    by rewrite <- (assoc_L (++)).
Qed.

Lemma wsfcAddrsLoop_state (fields wsfcAddrs : list string) (st : state) :
  wsfcAddrsLoop fields wsfcAddrs st
  = Returns (wsfcAddrs ++ List.filter validWSFCAddr fields)
            (withLogs (map LogBadWSFCAddress (List.filter rejectedWSFCAddr fields)) st).
Proof.
  revert wsfcAddrs st.
  induction fields as [|wsfcAddr rest IH]; intros wsfcAddrs st; simpl.
  - by rewrite app_nil_r.
  - unfold validWSFCAddr at 1, rejectedWSFCAddr at 1.
    destruct (decide (String.length wsfcAddr = 0)) as [Hz|Hnz].
    + rewrite Hz; simpl. apply IH.
    + apply Nat.eqb_neq in Hnz as ->; simpl.
      destruct (ParseIP wsfcAddr) as [ip|] eqn:Hip.
      * rewrite bool_decide_true by eauto. simpl.
        rewrite IH. by rewrite <- (assoc_L (++)).
      * rewrite bool_decide_false by (intros [? ?]; congruence). simpl.
        unfold mbind, M_bind, logf. apply IH.
Qed.

(** The exclusion list holds only entries that are not empty and parse as
    an IP; every entry that is not empty and does not parse is logged once, in
    the order of the attribute, empty entries are passed over silently, and
    nothing else of the state changes. *)
Theorem wsfcAddrsLoop_valid_and_logged (attribute : string) (st : state) :
  ∃ st',
    wsfcAddrsLoop (strings.Split attribute ",") [] st
    = Returns (wsfcAddrsOf attribute) st'
    ∧ Forall (λ wsfcAddr, wsfcAddr ≠ "" ∧ is_Some (ParseIP wsfcAddr))
             (wsfcAddrsOf attribute)
    ∧ logged st'
      = logged st
        ++ map LogBadWSFCAddress
               (List.filter rejectedWSFCAddr (strings.Split attribute ","))
    ∧ os st' = os st ∧ badMAC st' = badMAC st.
Proof.
  eexists. split; [apply wsfcAddrsLoop_state|].
  destruct (withLogs_frame
              (map LogBadWSFCAddress
                   (List.filter rejectedWSFCAddr (strings.Split attribute ","))) st)
    as (Hos & _ & _ & _ & Hbad & Hlog).
  split; [|done].
  apply Forall_forall. intros wsfcAddr. unfold wsfcAddrsOf.
  rewrite elem_of_List_filter. intros [_ Hvalid].
  unfold validWSFCAddr in Hvalid. apply andb_true_iff in Hvalid as [Hlen Hip].
  apply negb_true_iff, Nat.eqb_neq in Hlen. apply bool_decide_eq_true in Hip.
  split; [|done]. intros ->. by apply Hlen.
Qed.

(** What the filter makes of the forwarded IPs of one interface. *)
Definition filtered (a : addresses) (ni : networkInterfaces) : list string :=
  match wsfcAddrsOf (WSFCAddresses (instAttrs a)),
        strconv.ParseBool (EnableWSFC (instAttrs a)) with
  | wsfcAddr :: wsfcAddrs, _ =>
      List.filter (λ ip, negb (containsString ip (wsfcAddr :: wsfcAddrs)))
                  (ForwardedIps ni)
  | [], Some true => []
  | [], _ => ForwardedIps ni
  end.

Lemma withForwardedIps_id (a : addresses) : withForwardedIps ForwardedIps a = a.
Proof.
  destruct a as [[[attrs nis] proj] old cfg]. unfold withForwardedIps; simpl.
  do 3 f_equal. induction nis as [|[mac ips] nis IH]; simpl; [done|]. by rewrite IH.
Qed.

Lemma applyWSFCFilter_filtered (a : addresses) (st : state) :
  applyWSFCFilter a st
  = Returns (withForwardedIps (filtered a) a)
            (withLogs (map LogBadWSFCAddress
                         (List.filter rejectedWSFCAddr
                            (strings.Split (WSFCAddresses (instAttrs a)) ","))) st).
Proof.
  unfold applyWSFCFilter, mbind, M_bind. rewrite wsfcAddrsLoop_state. simpl.
  unfold filtered. fold (wsfcAddrsOf (WSFCAddresses (instAttrs a))).
  destruct (wsfcAddrsOf (WSFCAddresses (instAttrs a))) as [|wsfcAddr wsfcAddrs]; simpl.
  - destruct (strconv.ParseBool (EnableWSFC (instAttrs a))) as [[|]|];
      unfold mret, M_ret; [done| |]; f_equal; symmetry; apply withForwardedIps_id.
  - done.
Qed.

Lemma filtered_sublist (a : addresses) (ni : networkInterfaces) :
  filtered a ni `sublist_of` ForwardedIps ni.
Proof.
  unfold filtered.
  destruct (wsfcAddrsOf _); [|apply List_filter_sublist].
  destruct (strconv.ParseBool _) as [[|]|]; [apply sublist_nil_l|done|done].
Qed.

(** The filter only takes forwarded IPs away: it keeps the interfaces, their
    order and their MACs, leaves on each a sublist of its forwarded IPs, and
    changes neither the attributes, the project, the old metadata, the local
    configuration nor the world. *)
Theorem applyWSFCFilter_only_removes (a : addresses) (st : state) :
  ∃ a' st',
    applyWSFCFilter a st = Returns a' st'
    ∧ map Mac (NetworkInterfaces (md_Instance (newMetadata a')))
      = map Mac (NetworkInterfaces (md_Instance (newMetadata a)))
    ∧ Forall2 (λ ni' ni, ForwardedIps ni' `sublist_of` ForwardedIps ni)
              (NetworkInterfaces (md_Instance (newMetadata a')))
              (NetworkInterfaces (md_Instance (newMetadata a)))
    ∧ instAttrs a' = instAttrs a
    ∧ md_Project (newMetadata a') = md_Project (newMetadata a)
    ∧ oldMetadata a' = oldMetadata a
    ∧ config a' = config a
    ∧ os st' = os st.
Proof.
  eexists _, _. split; [apply applyWSFCFilter_filtered|].
  split; [|split].
  - simpl. rewrite map_map. by apply map_ext.
  - simpl. induction (NetworkInterfaces (md_Instance (newMetadata a)))
      as [|ni nis IH]; simpl; constructor; [apply filtered_sublist | done].
  - repeat split; try done. apply withLogs_frame.
Qed.

Lemma withForwardedIps_twice (f g : networkInterfaces → list string) (a : addresses) :
  withForwardedIps g (withForwardedIps f a)
  = withForwardedIps (λ ni, g (mkNetworkInterfaces (Mac ni) (f ni))) a.
Proof. unfold withForwardedIps; simpl. by rewrite map_map. Qed.

Lemma filtered_idemp (a : addresses) (ni : networkInterfaces) :
  filtered a (mkNetworkInterfaces (Mac ni) (filtered a ni)) = filtered a ni.
Proof.
  unfold filtered. destruct (wsfcAddrsOf _); simpl.
  - by destruct (strconv.ParseBool _) as [[|]|].
  - apply List_filter_idemp.
Qed.

(** The filter is idempotent: run again on its own result, it changes no
    interface. *)
Theorem applyWSFCFilter_idempotent (a : addresses) (st : state) :
  ∃ a' st' st'',
    applyWSFCFilter a st = Returns a' st'
    ∧ applyWSFCFilter a' st' = Returns a' st''.
Proof.
  eexists _, _, _. split; [apply applyWSFCFilter_filtered|].
  rewrite applyWSFCFilter_filtered. f_equal.
  change (filtered (withForwardedIps (filtered a) a)) with (filtered a).
  rewrite withForwardedIps_twice. unfold withForwardedIps. do 3 f_equal.
  apply map_ext. intros ni. f_equal. apply filtered_idemp.
Qed.

End Filter.

(** ** Further properties of the apply loop *)

Section ApplyLoopFrame.

Context `{Platform}.

#[local] Existing Instances M_ret M_bind.

(** What no part of [set] undoes: the remembered settings stay, and the
    bad-MAC list and the log only get longer. *)
Definition grows (st st' : state) : Prop :=
  addressDisabled st' = addressDisabled st
  ∧ oldWSFCAddresses st' = oldWSFCAddresses st
  ∧ oldWSFCEnable st' = oldWSFCEnable st
  ∧ badMAC st `prefix_of` badMAC st'
  ∧ logged st `prefix_of` logged st'.

Definition preserves {A} (m : M A) : Prop :=
  ∀ st a st', m st = Returns a st' → grows st st'.

Lemma grows_refl (st : state) : grows st st.
Proof. by repeat split. Qed.

Lemma grows_trans (st1 st2 st3 : state) : grows st1 st2 → grows st2 st3 → grows st1 st3.
Proof.
  intros (Hd & Ha & He & Hb & Hl) (Hd' & Ha' & He' & Hb' & Hl').
  repeat split; try congruence; by etrans.
Qed.

Ltac solve_grows :=
  let Heq := fresh "Heq" in
  intros Heq; inversion Heq; subst; repeat split; simpl;
  try reflexivity; try by apply prefix_app_r.

Lemma preserves_ret {A} (a : A) : preserves (mret a).
Proof. intros st a' st'. solve_grows. Qed.

Lemma preserves_bind {A B} (m : M A) (f : A → M B) :
  preserves m → (∀ a, preserves (f a)) → preserves (m ≫= f).
Proof.
  intros Hm Hf st b st'. unfold mbind, M_bind.
  destruct (m st) as [a st1|] eqn:Hrun; [|done].
  intros Hrun'. eapply grows_trans; [by eapply Hm | by eapply Hf].
Qed.

Lemma preserves_callOS {A} (f : World → A * World) : preserves (callOS f).
Proof.
  intros st a st'. unfold callOS. destruct (f (os st)) as [a' w]. solve_grows.
Qed.

Lemma preserves_logf (e : logEntry) : preserves (logf e).
Proof.
  intros st a st'. solve_grows.
Qed.

Lemma preserves_noteBadMAC (mac : string) (e : logEntry) : preserves (noteBadMAC mac e).
Proof.
  intros st a st'. unfold noteBadMAC.
  destruct (containsString mac (badMAC st)); solve_grows.
Qed.

Lemma preserves_panic {A} : preserves (@panic _ A).
Proof. by intros st a st'. Qed.

Lemma preserves_addLoop (index : Z) (toAdd regFwdIPs reg : list string) :
  preserves (addLoop index toAdd regFwdIPs reg).
Proof.
  revert regFwdIPs reg. induction toAdd as [|ip rest IH]; intros regFwdIPs reg; simpl.
  - apply preserves_ret.
  - apply preserves_bind; [apply preserves_callOS|]. intros [e|]; [|apply IH].
    apply preserves_bind; [apply preserves_logf|]. intros _.
    destruct (indexOf ip reg) as [i|]; [|apply IH].
    destruct (appendWithout regFwdIPs i) as [[reg' regFwdIPs']|];
      [apply IH | apply preserves_panic].
Qed.

Lemma preserves_rmLoop (toRm reg : list string) : preserves (rmLoop toRm reg).
Proof.
  revert reg. induction toRm as [|ip rest IH]; intros reg; simpl.
  - apply preserves_ret.
  - apply preserves_bind; [apply preserves_callOS|]. intros [e|]; [|apply IH].
    apply preserves_bind; [apply preserves_logf|]. intros _. apply IH.
Qed.

Lemma preserves_setOnInterface (ifs : list (netInterface HW)) (ni : networkInterfaces)
    (mac : HW) (regFwdIPs : list string) :
  preserves (setOnInterface ifs ni mac regFwdIPs).
Proof.
  unfold setOnInterface. case_decide; [apply preserves_noteBadMAC|].
  apply preserves_bind; [apply preserves_callOS|]. intros [addrs|err];
    [|apply preserves_logf].
  destruct (compareIPs _ _ _) as [toAdd toRm].
  apply preserves_bind.
  { case_decide; [apply preserves_logf | apply preserves_ret]. }
  intros _. apply preserves_bind.
  { unfold nextPersisted. apply preserves_bind; [apply preserves_addLoop|].
    intros reg. apply preserves_rmLoop. }
  intros reg. apply preserves_bind; [apply preserves_callOS|].
  intros [e|]; [apply preserves_logf | apply preserves_ret].
Qed.

Lemma preserves_setInterface (ifs : list (netInterface HW)) (ni : networkInterfaces) :
  preserves (setInterface ifs ni).
Proof.
  unfold setInterface. destruct (ParseMAC (Mac ni)) as [mac|err];
    [|apply preserves_noteBadMAC].
  apply preserves_bind; [apply preserves_callOS|]. intros [regFwdIPs|err].
  - apply preserves_setOnInterface.
  - case_decide; [apply preserves_setOnInterface | apply preserves_logf].
Qed.

Lemma preserves_setLoop (ifs : list (netInterface HW)) (nis : list networkInterfaces) :
  preserves (setLoop ifs nis).
Proof.
  induction nis as [|ni rest IH]; simpl; [apply preserves_ret|].
  apply preserves_bind; [apply preserves_setInterface | by intros _].
Qed.

Lemma preserves_applyWSFCFilter (a : addresses) : preserves (applyWSFCFilter a).
Proof.
  intros st a' st'. rewrite applyWSFCFilter_filtered. intros Heq.
  inversion Heq; subst. destruct (withLogs_frame
              (map LogBadWSFCAddress
                 (List.filter rejectedWSFCAddr
                    (strings.Split (WSFCAddresses (instAttrs a)) ","))) st)
    as (_ & Hd & Ha & He & Hb & Hl).
  repeat split; try done; [by rewrite Hb | rewrite Hl; by apply prefix_app_r].
Qed.

(** Whenever [set] returns, error or not, the remembered disabled flag and
    the remembered failover settings are what they were, and the bad-MAC list
    and the log have only been appended to: a MAC once noted as bad stays
    noted. *)
Theorem set_keeps_memo_and_grows (a : addresses) (st st' : state)
    (r : option error * addresses) :
  set a st = Returns r st' →
  addressDisabled st' = addressDisabled st
  ∧ oldWSFCAddresses st' = oldWSFCAddresses st
  ∧ oldWSFCEnable st' = oldWSFCEnable st
  ∧ badMAC st `prefix_of` badMAC st'
  ∧ logged st `prefix_of` logged st'.
Proof.
  revert st r st'. change (preserves (set a)). unfold set.
  apply preserves_bind; [apply preserves_callOS|]. intros [ifs|err];
    [|apply preserves_ret].
  apply preserves_bind; [apply preserves_applyWSFCFilter|]. intros a'.
  apply preserves_bind; [apply preserves_setLoop|]. intros _. apply preserves_ret.
Qed.

End ApplyLoopFrame.

Section ApplyLoopSteps.

Context `{Platform}.

Lemma findInterface_from (ifs : list (netInterface HW)) (mac : HW)
    (acc : netInterface HW) :
  let found :=
    fold_left (λ iface i,
                 if decide (hwString (HardwareAddr i) = hwString mac) then i else iface)
              ifs acc in
  found = acc ∨ (found ∈ ifs ∧ hwString (HardwareAddr found) = hwString mac).
Proof.
  revert acc. induction ifs as [|i ifs IH]; intros acc; simpl; [by left|].
  destruct (IH (if decide (hwString (HardwareAddr i) = hwString mac) then i else acc))
    as [Hacc|[Hin Hmac]].
  - rewrite Hacc. case_decide; [right | by left]. split; [left | done].
  - right. split; [by right | done].
Qed.

(** The interface [set] works on is one that [net.Interfaces] listed and
    whose hardware address prints as the parsed MAC; otherwise the search
    leaves the zero interface and the iteration is skipped. *)
Theorem findInterface_found (ifs : list (netInterface HW)) (mac : HW) :
  zeroInterface ≠ findInterface ifs mac →
  findInterface ifs mac ∈ ifs
  ∧ hwString (HardwareAddr (findInterface ifs mac)) = hwString mac.
Proof.
  intros Hfound. destruct (findInterface_from ifs mac zeroInterface) as [Hzero|Hin].
  - by destruct Hfound.
  - done.
Qed.

(** The search of the add-failure handling stops at the first occurrence of
    the address in [reg]. *)
Theorem indexOf_first (ip : string) (reg : list string) (i : nat) :
  indexOf ip reg = Some i →
  reg !! i = Some ip ∧ ip ∉ take i reg.
Proof.
  revert i. induction reg as [|rIP rest IH]; intros i; simpl; [done|].
  case_decide as Heq.
  - intros [= <-]. simpl. split; [by rewrite Heq | apply not_elem_of_nil].
  - destruct (indexOf ip rest) as [j|]; [|done]. intros [= <-].
    destruct (IH j eq_refl) as [Hlook Hnot]. simpl. split; [done|].
    rewrite not_elem_of_cons. split; [congruence | done].
Qed.

Lemma containsString_snoc (s : string) (ss : list string) :
  containsString s (ss ++ [s]) = true.
Proof. apply containsString_elem_of. set_solver. Qed.

(** An interface whose MAC does not parse is skipped without any call into
    the system; its MAC string is in the bad-MAC list afterwards, the error is
    logged only if the string was not there before, and meeting the same
    string again changes nothing, so it is logged once. *)
Theorem unparsable_mac_logged_once (ifs : list (netInterface HW))
    (ni : networkInterfaces) (st : state) (err : error) :
  ParseMAC (Mac ni) = Failure err →
  ∃ st1,
    setInterface ifs ni st = Returns tt st1
    ∧ setInterface ifs ni st1 = Returns tt st1
    ∧ os st1 = os st
    ∧ Mac ni ∈ badMAC st1
    ∧ logged st1
      = logged st ++ (if containsString (Mac ni) (badMAC st) then [] else [LogError err]).
Proof.
  intros Hparse. unfold setInterface. rewrite Hparse. unfold noteBadMAC.
  destruct (containsString (Mac ni) (badMAC st)) eqn:Hbad.
  - exists st. rewrite Hbad, app_nil_r. repeat split; try done.
    by apply containsString_elem_of.
  - eexists. split; [reflexivity|]. simpl. rewrite containsString_snoc.
    repeat split; try done. set_solver.
Qed.

(** A declared interface that the system does not have is skipped after its
    persisted record is read: no address is read, added or removed, nothing is
    written, and the MAC string is noted as bad. *)
Theorem missing_interface_skipped (ifs : list (netInterface HW))
    (ni : networkInterfaces) (mac : HW) (regFwdIPs : list string) (st : state) :
  findInterface ifs mac = zeroInterface →
  ∃ st',
    setOnInterface ifs ni mac regFwdIPs st = Returns tt st'
    ∧ os st' = os st
    ∧ Mac ni ∈ badMAC st'.
Proof.
  intros Hzero. unfold setOnInterface. rewrite Hzero, decide_True by done.
  unfold noteBadMAC. destruct (containsString (Mac ni) (badMAC st)) eqn:Hbad.
  - exists st. repeat split; try done. by apply containsString_elem_of.
  - eexists. split; [reflexivity|]. simpl. split; [done | set_solver].
Qed.



(** *** The cycle in which every add and remove succeeds *)

(** The world after the adds of [toAdd], when none of them fails. *)
Fixpoint addsSucceed (index : Z) (toAdd : list string) (w : World) : option World :=
  match toAdd with
  | [] => Some w
  | ip :: rest =>
      match addIPAddress (ParseIP ip) (ParseIP "255.255.255.255") index w with
      | (None, w') => addsSucceed index rest w'
      | (Some _, _) => None
      end
  end.

(** The world after the removes of [toRm], when none of them fails. *)
Fixpoint deletesSucceed (toRm : list string) (w : World) : option World :=
  match toRm with
  | [] => Some w
  | ip :: rest =>
      match deleteIPAddress (ParseIP ip) w with
      | (None, w') => deletesSucceed rest w'
      | (Some _, _) => None
      end
  end.

Lemma withOS_os (st : state) : withOS (os st) st = st.
Proof. by destruct st. Qed.

Lemma addLoop_success (index : Z) (toAdd regFwdIPs reg : list string)
    (st : state) (w1 : World) :
  addsSucceed index toAdd (os st) = Some w1 →
  addLoop index toAdd regFwdIPs reg st = Returns reg (withOS w1 st).
Proof.
  revert st. induction toAdd as [|ip rest IH]; intros st; simpl.
  - intros [= <-]. by rewrite withOS_os.
  - unfold mbind, M_bind, callOS.
    destruct (addIPAddress _ _ index (os st)) as [[e|] w']; [done|].
    intros Hrest. simpl. by rewrite (IH (withOS w' st) Hrest).
Qed.

Lemma rmLoop_success (toRm reg : list string) (st : state) (w2 : World) :
  deletesSucceed toRm (os st) = Some w2 →
  rmLoop toRm reg st = Returns reg (withOS w2 st).
Proof.
  revert st. induction toRm as [|ip rest IH]; intros st; simpl.
  - intros [= <-]. by rewrite withOS_os.
  - unfold mbind, M_bind, callOS.
    destruct (deleteIPAddress _ (os st)) as [[e|] w']; [done|].
    intros Hrest. simpl. by rewrite (IH (withOS w' st) Hrest).
Qed.

(** When the interface exists, its addresses are read and every add and
    remove of the cycle succeeds, the iteration returns and the record it
    writes for the interface is exactly the desired list. *)
Theorem all_succeed_persists_desired
    (ifs : list (netInterface HW)) (ni : networkInterfaces) (mac : HW)
    (regFwdIPs addrs toAdd toRm : list string) (st : state) (w w1 w2 : World) :
  zeroInterface ≠ findInterface ifs mac →
  Addrs (findInterface ifs mac) (os st) = (Value addrs, w) →
  compareIPs regFwdIPs (ForwardedIps ni)
             (map (λ addr, strings.TrimSuffix addr "/32") addrs)
  = (toAdd, toRm) →
  addsSucceed (Index (findInterface ifs mac)) toAdd w = Some w1 →
  deletesSucceed toRm w1 = Some w2 →
  ∃ st',
    setOnInterface ifs ni mac regFwdIPs st = Returns tt st'
    ∧ os st'
      = (writeRegMultiString addressKey (hwString mac) (ForwardedIps ni) w2).2.
Proof.
  intros Hfound Haddrs Hcmp Hadd Hrm.
  unfold setOnInterface. rewrite decide_False by done.
  unfold mbind, M_bind, callOS. rewrite Haddrs. cbv beta iota zeta. rewrite Hcmp.
  unfold nextPersisted, mbind, M_bind.
  case_decide.
  - unfold logf at 1.
    rewrite (addLoop_success _ toAdd regFwdIPs (ForwardedIps ni) _ w1) by done.
    rewrite (rmLoop_success toRm (ForwardedIps ni) _ w2) by done. simpl.
    destruct (writeRegMultiString addressKey (hwString mac) (ForwardedIps ni) w2)
      as [[e|] w']; eexists; (split; [reflexivity | done]).
  - unfold mret at 1, M_ret at 1.
    rewrite (addLoop_success _ toAdd regFwdIPs (ForwardedIps ni) _ w1) by done.
    rewrite (rmLoop_success toRm (ForwardedIps ni) _ w2) by done. simpl.
    destruct (writeRegMultiString addressKey (hwString mac) (ForwardedIps ni) w2)
      as [[e|] w']; eexists; (split; [reflexivity | done]).
Qed.

(** With no interface declared in the metadata, [set] returns nil after the
    enumeration: nothing is read from or written to the registry and no
    address is touched. *)
Theorem set_without_interfaces (a : addresses) (st : state)
    (ifs : list (netInterface HW)) (w : World) :
  NetworkInterfaces (md_Instance (newMetadata a)) = [] →
  Interfaces (os st) = (Value ifs, w) →
  ∃ st', set a st = Returns (None, a) st' ∧ os st' = w.
Proof.
  intros Hnone Hifs. unfold set, mbind, M_bind, callOS. rewrite Hifs. simpl.
  rewrite applyWSFCFilter_filtered. simpl. rewrite Hnone. simpl.
  assert (Hsame : withForwardedIps (filtered a) a = a).
  { destruct a as [[[attrs nis] proj] old cfg]. simpl in Hnone. subst nis. done. }
  rewrite Hsame. eexists. split; [reflexivity|].
  apply (withLogs_frame _ (withOS w st)).
Qed.

End ApplyLoopSteps.

(** ** The further properties on the scripted platform *)

(** Scenario A as a whole cycle: 10.0.0.5 persisted and live, 10.0.0.6
    desired, every call succeeding. *)
Definition scenarioA : state := start (world (Some [ip5]) [ip5] [] []).

Definition agentA : addresses := agent noAttrs noAttrs ∅ [ip6].

Definition scenarioA_result : option error * addresses :=
  match set agentA scenarioA with
  | Returns r _ => r
  | Panics => (None, agentA)
  end.

Definition scenarioA_after : state :=
  match set agentA scenarioA with
  | Returns _ st => st
  | Panics => scenarioA
  end.

Lemma set_keeps_memo_and_grows_witness :
  set agentA scenarioA = Returns scenarioA_result scenarioA_after
  ∧ (addressDisabled scenarioA_after = addressDisabled scenarioA
     ∧ oldWSFCAddresses scenarioA_after = oldWSFCAddresses scenarioA
     ∧ oldWSFCEnable scenarioA_after = oldWSFCEnable scenarioA
     ∧ badMAC scenarioA `prefix_of` badMAC scenarioA_after
     ∧ logged scenarioA `prefix_of` logged scenarioA_after).
Proof.
  assert (Hset : set agentA scenarioA = Returns scenarioA_result scenarioA_after)
    by (vm_compute; reflexivity).
  split; [exact Hset|].
  exact (set_keeps_memo_and_grows agentA scenarioA scenarioA_after scenarioA_result Hset).
Defined.

Lemma findInterface_found_witness :
  zeroInterface ≠ findInterface [nic] mac0
  ∧ (findInterface [nic] mac0 ∈ [nic]
     ∧ hwString (HardwareAddr (findInterface [nic] mac0)) = hwString mac0).
Proof.
  assert (Hfound : zeroInterface ≠ findInterface [nic] mac0)
    by (vm_compute; discriminate).
  split; [exact Hfound|].
  exact (findInterface_found [nic] mac0 Hfound).
Defined.

Lemma indexOf_first_witness :
  indexOf ip6 [ip5; ip6; ip6] = Some 1
  ∧ ([ip5; ip6; ip6] !! 1 = Some ip6 ∧ ip6 ∉ take 1 [ip5; ip6; ip6]).
Proof.
  assert (Hidx : indexOf ip6 [ip5; ip6; ip6] = Some 1) by reflexivity.
  split; [exact Hidx|].
  exact (indexOf_first ip6 [ip5; ip6; ip6] 1 Hidx).
Defined.

Definition badNI : networkInterfaces := mkNetworkInterfaces "not-a-mac" [ip5].

Definition badMACError : error := errOther "address not-a-mac: invalid MAC address".

Lemma unparsable_mac_logged_once_witness :
  ParseMAC (Mac badNI) = Failure badMACError
  ∧ ∃ st1,
      setInterface [nic] badNI scenarioA = Returns tt st1
      ∧ setInterface [nic] badNI st1 = Returns tt st1
      ∧ os st1 = os scenarioA
      ∧ Mac badNI ∈ badMAC st1
      ∧ logged st1
        = logged scenarioA
          ++ (if containsString (Mac badNI) (badMAC scenarioA)
              then [] else [LogError badMACError]).
Proof.
  assert (Hparse : ParseMAC (Mac badNI) = Failure badMACError) by reflexivity.
  split; [exact Hparse|].
  exact (unparsable_mac_logged_once [nic] badNI scenarioA badMACError Hparse).
Defined.

Definition niA : networkInterfaces := mkNetworkInterfaces mac0 [ip6].

Lemma missing_interface_skipped_witness :
  findInterface [] mac0 = zeroInterface
  ∧ ∃ st',
      setOnInterface [] niA mac0 [ip5] scenarioA = Returns tt st'
      ∧ os st' = os scenarioA
      ∧ Mac niA ∈ badMAC st'.
Proof.
  assert (Hzero : findInterface [] mac0 = zeroInterface) by reflexivity.
  split; [exact Hzero|].
  exact (missing_interface_skipped [] niA mac0 [ip5] scenarioA Hzero).
Defined.

Definition scenarioA_added : testWorld :=
  (testAdd (Some ip6) (Some "255.255.255.255") 3%Z (os scenarioA)).2.

Definition scenarioA_removed : testWorld :=
  (testDelete (Some ip5) scenarioA_added).2.

Lemma all_succeed_persists_desired_witness :
  zeroInterface ≠ findInterface [nic] mac0
  ∧ Addrs (findInterface [nic] mac0) (os scenarioA)
    = (Value [ip5 +:+ "/32"], os scenarioA)
  ∧ compareIPs [ip5] (ForwardedIps niA)
               (map (λ addr, strings.TrimSuffix addr "/32") [ip5 +:+ "/32"])
    = ([ip6], [ip5])
  ∧ addsSucceed (Index (findInterface [nic] mac0)) [ip6] (os scenarioA)
    = Some scenarioA_added
  ∧ deletesSucceed [ip5] scenarioA_added = Some scenarioA_removed
  ∧ ∃ st',
      setOnInterface [nic] niA mac0 [ip5] scenarioA = Returns tt st'
      ∧ os st'
        = (writeRegMultiString addressKey (hwString mac0) (ForwardedIps niA)
                               scenarioA_removed).2.
Proof.
  assert (H1 : zeroInterface ≠ findInterface [nic] mac0) by (vm_compute; discriminate).
  assert (H2 : Addrs (findInterface [nic] mac0) (os scenarioA)
               = (Value [ip5 +:+ "/32"], os scenarioA)) by reflexivity.
  assert (H3 : compareIPs [ip5] (ForwardedIps niA)
                 (map (λ addr, strings.TrimSuffix addr "/32") [ip5 +:+ "/32"])
               = ([ip6], [ip5])) by reflexivity.
  assert (H4 : addsSucceed (Index (findInterface [nic] mac0)) [ip6] (os scenarioA)
               = Some scenarioA_added) by reflexivity.
  assert (H5 : deletesSucceed [ip5] scenarioA_added = Some scenarioA_removed)
    by reflexivity.
  repeat (split; [assumption|]).
  exact (all_succeed_persists_desired [nic] niA mac0 [ip5] [ip5 +:+ "/32"] [ip6] [ip5]
           scenarioA (os scenarioA) scenarioA_added scenarioA_removed H1 H2 H3 H4 H5).
Defined.

Definition agentNone : addresses :=
  mkAddresses (mkMetadata (mkInstance noAttrs []) (mkProject noAttrs))
              (mkMetadata (mkInstance noAttrs []) (mkProject noAttrs)) ∅.

Lemma set_without_interfaces_witness :
  NetworkInterfaces (md_Instance (newMetadata agentNone)) = []
  ∧ Interfaces (os scenarioA) = (Value [nic], os scenarioA)
  ∧ ∃ st', set agentNone scenarioA = Returns (None, agentNone) st'
           ∧ os st' = os scenarioA.
Proof.
  assert (H1 : NetworkInterfaces (md_Instance (newMetadata agentNone)) = [])
    by reflexivity.
  assert (H2 : Interfaces (os scenarioA) = (Value [nic], os scenarioA)) by reflexivity.
  repeat (split; [assumption|]).
  exact (set_without_interfaces agentNone scenarioA [nic] (os scenarioA) H1 H2).
Defined.

(** No persisted record, 10.0.0.6 desired and its add failing. *)
Definition scenarioFresh : state := start (world None [] [ip6] []).

Lemma addLoop_failure_out_of_range_witness :
  addIPAddress (ParseIP ip6) (ParseIP "255.255.255.255") 3%Z (os scenarioFresh)
  = (Some (errOther "add failed"), os scenarioFresh)
  ∧ indexOf ip6 [ip6] = Some 0
  ∧ length ([] : list string) ≤ 0
  ∧ addLoop 3%Z (ip6 :: []) [] [ip6] scenarioFresh = Panics.
Proof.
  assert (H1 : addIPAddress (ParseIP ip6) (ParseIP "255.255.255.255") 3%Z
                 (os scenarioFresh)
               = (Some (errOther "add failed"), os scenarioFresh)) by reflexivity.
  assert (H2 : indexOf ip6 [ip6] = Some 0) by reflexivity.
  assert (H3 : length ([] : list string) ≤ 0) by (simpl; lia).
  repeat (split; [assumption|]).
  exact (addLoop_failure_out_of_range 3%Z ip6 [] [] [ip6] scenarioFresh
           (errOther "add failed") (os scenarioFresh) 0 H1 H2 H3).
Defined.
